(** * mq::Queue — a bounded queue with two removal policies

    Shallow embedding of [src/messageQueue.hpp].  A call of the queue is a
    function from the queue's state to an outcome; the backing container
    is a list whose first element is the container's front. *)

From Stdlib Require Import List ZArith Lia Bool Arith.
From Stdlib Require Import Permutation.
From Stdlib Require Ascii String DecimalString.
Import ListNotations.

Set Implicit Arguments.

(** ** sem::Semaphore *)

Module sem.

(** Modelled from the spec: [synchronizer.hpp], which declares
    [sem::Semaphore], is not among the sources.  The spec calls the two
    semaphores of a queue "counting resources": waiting decrements the
    count and blocks while it is zero, signalling increments it.  The
    constructor is called with two arguments, [{max_size_, 0}] and
    [{max_size_, max_size_}]; the second is the initial count (no item
    available and every slot free at construction), the first is kept as
    [bound] and is not consulted by the increment the spec describes. *)
Record Semaphore : Type := mkSemaphore { bound : nat; count : nat }.

(** [None] stands for a caller that stays blocked. *)
Definition wait (s : Semaphore) : option Semaphore :=
  match count s with
  | O => None
  | S n => Some (mkSemaphore (bound s) n)
  end.

Definition signal (s : Semaphore) : Semaphore :=
  mkSemaphore (bound s) (S (count s)).

End sem.

(** ** sync::Synchronizer *)

Module sync.

(** How a call on a state [St] ends: the caller is still waiting on the
    entry semaphore; the call returned [v]; an exception [e] left the call;
    or the call used the container outside its precondition ([front],
    [back] or a pop on an empty container), which C++ leaves undefined. *)
Inductive Outcome (Exn St A : Type) : Type :=
| Blocked
| Returned (v : A) (s : St)
| Thrown (e : Exn) (s : St)
| Undefined.

Arguments Blocked {Exn St A}.
Arguments Returned {Exn St A} v s.
Arguments Thrown {Exn St A} e s.
Arguments Undefined {Exn St A}.

(** Modelled from the spec: [synchronizer.hpp], which declares
    [sync::Synchronizer], is not among the sources.  Spec 4.4: on entry
    wait on the entry resource, then take the lock; the body runs under the
    lock; on exit, on every path (normal return, early return, failure),
    release the lock and signal the exit resource.  The lock itself holds
    no data and calls are taken one at a time, so only the two semaphores
    appear.  [entry] and [leave] read a semaphore of the state, [set_entry]
    and [set_leave] write it back. *)
Definition Synchronizer {Exn St A : Type}
    (entry : St -> sem.Semaphore) (set_entry : sem.Semaphore -> St -> St)
    (leave : St -> sem.Semaphore) (set_leave : sem.Semaphore -> St -> St)
    (body : St -> Outcome Exn St A) (s : St) : Outcome Exn St A :=
  match sem.wait (entry s) with
  | None => Blocked
  | Some e' =>
      match body (set_entry e' s) with
      | Blocked => Blocked
      | Returned v s' => Returned v (set_leave (sem.signal (leave s')) s')
      | Thrown e s' => Thrown e (set_leave (sem.signal (leave s')) s')
      | Undefined => Undefined
      end
  end.

End sync.

(** ** message_queue.cpp: the payload and the two listeners *)

Module app.

Import Ascii String.
Local Open Scope string_scope.

(** [enum class Action]; the enumerators take the values 0 to 7. *)
Inductive Action : Type :=
| ACTION_NONE
| ACTION_1
| ACTION_2
| ACTION_3
| ACTION_4
| ACTION_5
| ACTION_6
| ACTION_7.

(** [static_cast<int>(action)]. *)
Definition Action_to_int (action : Action) : Z :=
  match action with
  | ACTION_NONE => 0
  | ACTION_1 => 1
  | ACTION_2 => 2
  | ACTION_3 => 3
  | ACTION_4 => 4
  | ACTION_5 => 5
  | ACTION_6 => 6
  | ACTION_7 => 7
  end%Z.

(** [message == a] on a scoped enumeration compares the values. *)
Definition Action_eqb (message a : Action) : bool :=
  (Action_to_int message =? Action_to_int a)%Z.

(** [operator<<]: the text appended to the stream, the decimal form of
    the enumerator's value. *)
Definition Action_print (action : Action) : string :=
  DecimalString.NilZero.string_of_int (Z.to_int (Action_to_int action)).

(** The loop both [consumed] overrides run over their [actions] array. *)
Fixpoint consumed_in (actions : list Action) (message : Action) : bool :=
  match actions with
  | [] => false
  | a :: rest => if Action_eqb message a then true else consumed_in rest message
  end.

Definition ListenerOne_actions : list Action :=
  [ACTION_1; ACTION_2; ACTION_3].

Definition ListenerTwo_actions : list Action :=
  [ACTION_4; ACTION_5; ACTION_6; ACTION_7].

Definition ListenerOne_consumed (message : Action) : bool :=
  consumed_in ListenerOne_actions message.

Definition ListenerTwo_consumed (message : Action) : bool :=
  consumed_in ListenerTwo_actions message.

Definition newline : string := String "010"%char EmptyString.

(** [ListenerTaskOne::process]: the text the call writes to [std::cout]. *)
Definition ListenerTaskOne_process (message : Action) : string :=
  "ListenerOne consume action: " ++
    (match message with
     | ACTION_1 => "ACTION_1"
     | ACTION_2 => "ACTION_2"
     | ACTION_3 => "ACTION_3"
     | _ => "None"
     end ++ newline).

(** [ListenerTaskTwo::process]; the case of [ACTION_5] writes the text of
    [ACTION_4], as in the source. *)
Definition ListenerTaskTwo_process (message : Action) : string :=
  "ListenerTwo consume action: " ++
    (match message with
     | ACTION_4 => "ACTION_4"
     | ACTION_5 => "ACTION_4"
     | ACTION_6 => "ACTION_6"
     | ACTION_7 => "ACTION_7"
     | _ => "None"
     end ++ newline).

End app.

(** ** namespace mq *)

Module mq.

Import sync.

(** [enum class Mode { FIFO, LIFO }]: a scoped enumeration over [int], so a
    [Mode] argument can carry any integer; the two enumerators are 0 and 1. *)
Definition Mode : Type := Z.
Definition FIFO : Mode := 0%Z.
Definition LIFO : Mode := 1%Z.

(** The two concrete classes derived from [BaseQueueManipulator]. *)
Inductive BaseQueueManipulator : Type :=
| QueueManipulatorFIFO
| QueueManipulatorLIFO.

(** [get_mode] returns the [qmode] the derived constructor passed up. *)
Definition get_mode (man : BaseQueueManipulator) : Mode :=
  match man with
  | QueueManipulatorFIFO => FIFO
  | QueueManipulatorLIFO => LIFO
  end.

Section Messages.

Variable Mtype : Type.
Variable Exn : Type.

(** *** BaseQueue / DerivedQueue: the container behind the adapter *)

Definition BaseQueue : Type := list Mtype.

Definition pop_front (messq : BaseQueue) : option BaseQueue :=
  match messq with
  | [] => None
  | _ :: rest => Some rest
  end.

Definition pop_back (messq : BaseQueue) : option BaseQueue :=
  match messq with
  | [] => None
  | _ :: _ => Some (removelast messq)
  end.

Definition push_back (msg : Mtype) (messq : BaseQueue) : BaseQueue :=
  messq ++ [msg].

Definition front (messq : BaseQueue) : option Mtype :=
  match messq with
  | [] => None
  | m :: _ => Some m
  end.

Fixpoint back (messq : BaseQueue) : option Mtype :=
  match messq with
  | [] => None
  | [m] => Some m
  | _ :: rest => back rest
  end.

Definition size (messq : BaseQueue) : nat := length messq.

Definition empty (messq : BaseQueue) : bool :=
  match messq with
  | [] => true
  | _ :: _ => false
  end.

(** *** The manipulators' virtual functions *)

Definition manipulator_pop (man : BaseQueueManipulator) (messq : BaseQueue)
    : option BaseQueue :=
  match man with
  | QueueManipulatorFIFO => pop_front messq
  | QueueManipulatorLIFO => pop_back messq
  end.

Definition manipulator_get (man : BaseQueueManipulator) (messq : BaseQueue)
    : option Mtype :=
  match man with
  | QueueManipulatorFIFO => front messq
  | QueueManipulatorLIFO => back messq
  end.

(** [push] is defined once in the base class and overridden by neither
    derived class. *)
Definition manipulator_push (man : BaseQueueManipulator) (msg : Mtype)
    (messq : BaseQueue) : BaseQueue :=
  push_back msg messq.

(** *** class Queue *)

(** [max_size] is a [std::size_t] that is set at construction and only
    ever compared for equality with [size()]; no arithmetic is done on it,
    so it is a natural number here.  The mutex holds no data. *)
Record Queue : Type := mkQueue {
  queue_manipulator : BaseQueueManipulator;
  msg_queue : BaseQueue;
  max_size : nat;
  count_full : sem.Semaphore;
  count_empty : sem.Semaphore
}.

Definition with_msg_queue (messq : BaseQueue) (q : Queue) : Queue :=
  mkQueue (queue_manipulator q) messq (max_size q) (count_full q) (count_empty q).

Definition with_count_full (s : sem.Semaphore) (q : Queue) : Queue :=
  mkQueue (queue_manipulator q) (msg_queue q) (max_size q) s (count_empty q).

Definition with_count_empty (s : sem.Semaphore) (q : Queue) : Queue :=
  mkQueue (queue_manipulator q) (msg_queue q) (max_size q) (count_full q) s.

Definition with_manipulator (man : BaseQueueManipulator) (q : Queue) : Queue :=
  mkQueue man (msg_queue q) (max_size q) (count_full q) (count_empty q).

Definition default_max_size : nat := 1000.

(** The constructor; [None] for a call that leaves [max_size_] to its
    default argument.  The manipulator comes from the member's default
    initialiser. *)
Definition Queue_new (msg_queue_ : BaseQueue) (max_size_ : option nat) : Queue :=
  let n := match max_size_ with Some n => n | None => default_max_size end in
  mkQueue QueueManipulatorLIFO msg_queue_ n
          (sem.mkSemaphore n 0) (sem.mkSemaphore n n).

Definition full (q : Queue) : bool := size (msg_queue q) =? max_size q.

Definition pop (q : Queue) : option Queue :=
  match manipulator_pop (queue_manipulator q) (msg_queue q) with
  | None => None
  | Some messq => Some (with_msg_queue messq q)
  end.

Definition push (msg : Mtype) (q : Queue) : Outcome Exn Queue bool :=
  if full q then Returned false q
  else Returned true
         (with_msg_queue (manipulator_push (queue_manipulator q) msg (msg_queue q)) q).

(** A caller's predicate either answers or raises. *)
Definition Predicate : Type := Mtype -> Exn + bool.

(** What a copy made through a reference holds.  [get] returns a reference
    to an element of the container, and [return { m }] copies through it.
    A copy made while the element lives is the element's value.  A copy
    made after the element was destroyed is a read of a dead object: C++
    defines no value for it (with [std::string] messages it yields
    garbage, with [std::list] it reads freed memory).  Either way [held]
    is the value the element held when the reference was taken. *)
Inductive Copied : Type :=
| Live (held : Mtype)
| Destroyed (held : Mtype).

Definition held (c : Copied) : Mtype :=
  match c with
  | Live m => m
  | Destroyed m => m
  end.

(** The body of [dequeue_if], below the guard.  [m] is bound by reference
    to the element [get] shows and [pred] reads it while it lives.  On
    acceptance [pop()] runs first and destroys that very element (the same
    manipulator chose it), and only then does [return { m }] copy through
    the reference: the optional is built from a destroyed element. *)
Definition dequeue_if_body (pred : Predicate) (q : Queue)
    : Outcome Exn Queue (option Copied) :=
  if empty (msg_queue q) then Returned None q
  else
    match manipulator_get (queue_manipulator q) (msg_queue q) with
    | None => Undefined
    | Some m =>
        match pred m with
        | inl e => Thrown e q
        | inr true =>
            match pop q with
            | None => Undefined
            | Some q' => Returned (Some (Destroyed m)) q'
            end
        | inr false => Returned None q
        end
    end.

Definition dequeue_if (pred : Predicate) (q : Queue)
    : Outcome Exn Queue (option Copied) :=
  Synchronizer count_full with_count_full count_empty with_count_empty
               (dequeue_if_body pred) q.

Definition enqueue (msg : Mtype) (q : Queue) : Outcome Exn Queue bool :=
  Synchronizer count_empty with_count_empty count_full with_count_full
               (push msg) q.

Definition set_mode (new_mode : Mode) (q : Queue) : Queue :=
  match new_mode with
  | 0%Z => with_manipulator QueueManipulatorFIFO q
  | 1%Z => with_manipulator QueueManipulatorLIFO q
  | _ => q
  end.

Definition mode (q : Queue) : Mode := get_mode (queue_manipulator q).

(** *** Sequences of calls *)

Inductive Call : Type :=
| Enqueue (msg : Mtype)
| DequeueIf (pred : Predicate)
| SetMode (new_mode : Mode).

(** What the caller of one call observes. *)
Inductive Reply : Type :=
| EnqueueReturned (ok : bool)
| DequeueReturned (m : option Copied)
| SetModeReturned
| CallBlocked
| CallThrew (e : Exn)
| CallUndefined.

(** A blocked call has changed nothing when it is given up; an undefined
    one is recorded and the state kept, so that a run shows it. *)
Definition settle {A : Type} (reply : A -> Reply) (q : Queue)
    (o : Outcome Exn Queue A) : Reply * Queue :=
  match o with
  | Blocked => (CallBlocked, q)
  | Returned v q' => (reply v, q')
  | Thrown e q' => (CallThrew e, q')
  | Undefined => (CallUndefined, q)
  end.

Definition perform (c : Call) (q : Queue) : Reply * Queue :=
  match c with
  | Enqueue msg => settle EnqueueReturned q (enqueue msg q)
  | DequeueIf pred => settle DequeueReturned q (dequeue_if pred q)
  | SetMode new_mode => (SetModeReturned, set_mode new_mode q)
  end.

Fixpoint run (calls : list Call) (q : Queue) : list Reply * Queue :=
  match calls with
  | [] => ([], q)
  | c :: rest =>
      let (r, q1) := perform c q in
      let (rs, q2) := run rest q1 in
      (r :: rs, q2)
  end.

Definition always (b : bool) : Predicate := fun _ => inr b.

Definition is_set_mode (c : Call) : bool :=
  match c with
  | SetMode _ => true
  | _ => false
  end.

(** *** The remaining private members of Queue *)

(** [Queue::size()] returns [max_size], the capacity, not the occupancy. *)
Definition Queue_size (q : Queue) : nat := max_size q.

Definition Queue_empty (q : Queue) : bool := empty (msg_queue q).

(** *** What a run took in and gave out *)

(** The message a call put into the container, read off its reply. *)
Definition accepted (c : Call) (r : Reply) : list Mtype :=
  match c, r with
  | Enqueue msg, EnqueueReturned true => [msg]
  | _, _ => []
  end.

(** The message a call took out of the container, read off its reply: a
    [dequeue_if] returns a value exactly when it popped, and the value is
    a copy made through the reference to the popped element. *)
Definition removed (r : Reply) : list Mtype :=
  match r with
  | DequeueReturned (Some c) => [held c]
  | _ => []
  end.

Fixpoint accepted_all (calls : list Call) (replies : list Reply) : list Mtype :=
  match calls, replies with
  | c :: cs, r :: rs => accepted c r ++ accepted_all cs rs
  | _, _ => []
  end.

Definition removed_all (replies : list Reply) : list Mtype :=
  flat_map removed replies.

(** *** Receiver and Producer *)

(** Both facades hold a [Queue<Mtype>&].  The queues live in a store and a
    reference is a position in it, so that several facades can name the
    same queue; a reference to no queue of the store is a facade that has
    outlived its queue. *)
Definition Store : Type := list Queue.

Fixpoint store_set (ref : nat) (q : Queue) (st : Store) : Store :=
  match st, ref with
  | [], _ => []
  | _ :: rest, O => q :: rest
  | q0 :: rest, S ref' => q0 :: store_set ref' q rest
  end.

(** A call made through a reference acts on the queue referred to. *)
Definition through {A : Type} (ref : nat)
    (call : Queue -> Outcome Exn Queue A) (st : Store) : Outcome Exn Store A :=
  match nth_error st ref with
  | None => Undefined
  | Some q =>
      match call q with
      | Blocked => Blocked
      | Returned v q' => Returned v (store_set ref q' st)
      | Thrown e q' => Thrown e (store_set ref q' st)
      | Undefined => Undefined
      end
  end.

Record Receiver : Type := mkReceiver { receiver_queue : nat }.

Record Producer : Type := mkProducer { producer_queue : nat }.

Definition Receiver_dequeue_if (rc : Receiver) (pred : Predicate) (st : Store)
    : Outcome Exn Store (option Copied) :=
  through (receiver_queue rc) (dequeue_if pred) st.

Definition Producer_enqueue (pr : Producer) (msg : Mtype) (st : Store)
    : Outcome Exn Store bool :=
  through (producer_queue pr) (enqueue msg) st.

(** The calls that alternate a [set_mode] and an [enqueue]. *)
Definition switching_enqueues (steps : list (Mode * Mtype)) : list Call :=
  flat_map (fun step => [SetMode (fst step); Enqueue (snd step)]) steps.

End Messages.

Arguments push {Mtype Exn} msg q.
Arguments enqueue {Mtype Exn} msg q.
Arguments always {Mtype Exn} b _.
Arguments Enqueue {Mtype Exn} msg.
Arguments SetMode {Mtype Exn} new_mode.
Arguments EnqueueReturned {Mtype Exn} ok.
Arguments DequeueReturned {Mtype Exn} m.
Arguments SetModeReturned {Mtype Exn}.
Arguments CallBlocked {Mtype Exn}.
Arguments CallThrew {Mtype Exn} e.
Arguments CallUndefined {Mtype Exn}.
Arguments Producer_enqueue {Mtype Exn} pr msg st.
Arguments switching_enqueues {Mtype Exn} steps.

(** ** Properties *)

Section Properties.

Variable Mtype : Type.
Variable Exn : Type.

Implicit Types (q : Queue Mtype) (messq rest : list Mtype) (m msg : Mtype).
Implicit Types (pred : Predicate Mtype Exn) (man : BaseQueueManipulator).

(** A call is admitted when its entry semaphore holds a token. *)
Definition admitted (entry : Queue Mtype -> sem.Semaphore) q : Prop :=
  sem.count (entry q) <> 0.

(** [m] is the message the active manipulator shows and [rest] is what the
    container holds once [m] is taken from that end. *)
Definition next_visible q m rest : Prop :=
  (mode q = FIFO /\ msg_queue q = m :: rest) \/
  (mode q = LIFO /\ msg_queue q = rest ++ [m]).

(** The state an admitted [dequeue_if] leaves when it removes nothing:
    a token taken from [count_full], one given to [count_empty]. *)
Definition dequeue_exit q : Queue Mtype :=
  with_count_empty (sem.signal (count_empty q))
    (with_count_full (sem.mkSemaphore (sem.bound (count_full q))
                                      (Nat.pred (sem.count (count_full q)))) q).

(** The state an admitted [enqueue] leaves when it appends nothing. *)
Definition enqueue_exit q : Queue Mtype :=
  with_count_full (sem.signal (count_full q))
    (with_count_empty (sem.mkSemaphore (sem.bound (count_empty q))
                                       (Nat.pred (sem.count (count_empty q)))) q).

(** *** The container *)

Lemma back_snoc messq m : back (messq ++ [m]) = Some m.
Proof.
  induction messq as [|x messq IH]; [reflexivity|].
  cbn [app back]. rewrite IH.
  destruct (messq ++ [m]) eqn:E; [|reflexivity].
  destruct messq; discriminate.
Qed.

Lemma pop_back_snoc messq m : pop_back (messq ++ [m]) = Some messq.
Proof.
  unfold pop_back. rewrite removelast_last.
  destruct messq; reflexivity.
Qed.

Lemma empty_snoc messq m : empty (messq ++ [m]) = false.
Proof. destruct messq; reflexivity. Qed.

Lemma mode_FIFO q : mode q = FIFO -> queue_manipulator q = QueueManipulatorFIFO.
Proof. unfold mode. destruct (queue_manipulator q); [reflexivity|discriminate]. Qed.

Lemma mode_LIFO q : mode q = LIFO -> queue_manipulator q = QueueManipulatorLIFO.
Proof. unfold mode. destruct (queue_manipulator q); [discriminate|reflexivity]. Qed.

Lemma next_visible_get q m rest :
  next_visible q m rest ->
  empty (msg_queue q) = false /\
  manipulator_get (queue_manipulator q) (msg_queue q) = Some m /\
  pop q = Some (with_msg_queue rest q).
Proof.
  unfold pop.
  intros [[Hm Hq]|[Hm Hq]].
  - rewrite (mode_FIFO _ Hm), Hq. repeat split.
  - rewrite (mode_LIFO _ Hm), Hq. cbn [manipulator_get manipulator_pop].
    rewrite empty_snoc, back_snoc, pop_back_snoc. repeat split.
Qed.

Lemma manipulator_visible man messq :
  empty messq = false ->
  exists m rest,
    manipulator_get man messq = Some m /\
    manipulator_pop man messq = Some rest /\
    size messq = S (size rest).
Proof.
  intros He. destruct man.
  - destruct messq as [|x l]; [discriminate|].
    exists x, l. repeat split.
  - destruct (exists_last (l:=messq)) as (l' & a & ->).
    { intros ->. discriminate. }
    exists a, l'. cbn [manipulator_get manipulator_pop].
    rewrite back_snoc, pop_back_snoc. repeat split.
    unfold size. rewrite length_app. cbn. lia.
Qed.

(** *** The guard *)

Lemma wait_admitted (s : sem.Semaphore) :
  sem.count s <> 0 ->
  sem.wait s = Some (sem.mkSemaphore (sem.bound s) (pred (sem.count s))).
Proof. unfold sem.wait. destruct (sem.count s); [congruence|reflexivity]. Qed.

Lemma wait_blocked (s : sem.Semaphore) : sem.count s = 0 -> sem.wait s = None.
Proof. unfold sem.wait. intros ->. reflexivity. Qed.

(** An admitted [dequeue_if], unfolded to its body. *)
Lemma dequeue_if_admitted pred q :
  admitted (@count_full Mtype) q ->
  dequeue_if pred q =
  match dequeue_if_body pred
          (with_count_full
             (sem.mkSemaphore (sem.bound (count_full q))
                              (Nat.pred (sem.count (count_full q)))) q) with
  | Blocked => Blocked
  | Returned v q' => Returned v (with_count_empty (sem.signal (count_empty q')) q')
  | Thrown e q' => Thrown e (with_count_empty (sem.signal (count_empty q')) q')
  | Undefined => Undefined
  end.
Proof.
  intros H. unfold dequeue_if, Synchronizer.
  rewrite (wait_admitted _ H). reflexivity.
Qed.

(** An admitted [enqueue], unfolded to [push]. *)
Lemma enqueue_admitted msg q :
  admitted (@count_empty Mtype) q ->
  enqueue (Exn:=Exn) msg q =
  match push msg
          (with_count_empty
             (sem.mkSemaphore (sem.bound (count_empty q))
                              (Nat.pred (sem.count (count_empty q)))) q) with
  | Blocked => Blocked
  | Returned v q' => Returned v (with_count_full (sem.signal (count_full q')) q')
  | Thrown e q' => Thrown e (with_count_full (sem.signal (count_full q')) q')
  | Undefined => Undefined
  end.
Proof.
  intros H. unfold enqueue, Synchronizer.
  rewrite (wait_admitted _ H). reflexivity.
Qed.

Lemma next_visible_with_count_full s q m rest :
  next_visible q m rest -> next_visible (with_count_full s q) m rest.
Proof. intros H. exact H. Qed.

(** *** dequeue_if *)

(** Whatever the state and the predicate, an admitted [dequeue_if] looks
    at the message the active manipulator shows (the front under FIFO, the
    back under LIFO).  When the predicate accepts it, that message and no
    other leaves the container, and what is returned is a copy made from
    the element once it is destroyed; when the predicate rejects it, the
    container is as before and the call returns no message.  With a
    predicate that always rejects, no outcome of the call changes the
    container, so its occupancy stays. *)
Lemma dequeue_if_peek_then_decide pred q :
  (forall m rest,
      admitted (@count_full Mtype) q -> next_visible q m rest ->
      (pred m = inr true ->
       exists q', dequeue_if pred q = Returned (Some (Destroyed m)) q' /\
                  msg_queue q' = rest) /\
      (pred m = inr false ->
       exists q', dequeue_if pred q = Returned None q' /\
                  msg_queue q' = msg_queue q)) /\
  match dequeue_if (always (Exn:=Exn) false) q with
  | Blocked => True
  | Returned v q' =>
      v = None /\ msg_queue q' = msg_queue q /\
      size (msg_queue q') = size (msg_queue q)
  | Thrown _ _ => False
  | Undefined => False
  end.
Proof.
  split.
  - intros m rest Hadm Hvis.
    rewrite (dequeue_if_admitted pred Hadm).
    set (q1 := with_count_full _ q).
    destruct (next_visible_get (next_visible_with_count_full
                                  (sem.mkSemaphore (sem.bound (count_full q))
                                     (Nat.pred (sem.count (count_full q)))) Hvis))
      as (He & Hg & Hp).
    fold q1 in He, Hg, Hp.
    unfold dequeue_if_body. rewrite He, Hg.
    split; intros ->.
    + rewrite Hp. eexists; split; reflexivity.
    + eexists; split; reflexivity.
  - unfold dequeue_if, Synchronizer.
    destruct (sem.wait (count_full q)) as [s|]; [|exact I].
    unfold dequeue_if_body. cbn [msg_queue with_count_full queue_manipulator].
    destruct (msg_queue q) as [|x l] eqn:E; cbn [empty].
    + cbn. rewrite E. repeat split.
    + destruct (manipulator_get (queue_manipulator q) (x :: l)) as [m|] eqn:G.
      * cbn. rewrite E. repeat split.
      * destruct (queue_manipulator q); cbn [manipulator_get front] in G;
          [discriminate|].
        destruct (exists_last (l:=x :: l)) as (l' & a & El); [discriminate|].
        rewrite El, back_snoc in G. discriminate.
Qed.

(** C8. When the predicate raises on the message an admitted [dequeue_if]
    shows it, the call ends with that same exception and the container is
    exactly as it was; and whenever [dequeue_if] ends with an exception,
    the container is as it was before the call. *)
Theorem dequeue_if_predicate_raises pred q :
  (forall m rest e,
      admitted (@count_full Mtype) q -> next_visible q m rest ->
      pred m = inl e ->
      exists q', dequeue_if pred q = Thrown e q' /\ msg_queue q' = msg_queue q) /\
  (forall e q', dequeue_if pred q = Thrown e q' -> msg_queue q' = msg_queue q).
Proof.
  split.
  - intros m rest e Hadm Hvis He.
    rewrite (dequeue_if_admitted pred Hadm).
    destruct (next_visible_get (next_visible_with_count_full
                                  (sem.mkSemaphore (sem.bound (count_full q))
                                     (Nat.pred (sem.count (count_full q)))) Hvis))
      as (Hne & Hg & _).
    unfold dequeue_if_body. rewrite Hne, Hg, He.
    eexists; split; reflexivity.
  - intros e q'. unfold dequeue_if, Synchronizer.
    destruct (sem.wait (count_full q)) as [s|]; [|discriminate].
    unfold dequeue_if_body, pop.
    cbn [msg_queue with_count_full queue_manipulator].
    destruct (empty (msg_queue q)); [discriminate|].
    destruct (manipulator_get _ _) as [m|]; [|discriminate].
    destruct (pred m) as [e0|[|]]; [|
      destruct (manipulator_pop _ _); discriminate | discriminate].
    intros [= _ <-]. reflexivity.
Qed.

(** *** enqueue *)

(** What [push] does to an admitted [enqueue], by the test of [full]. *)
Lemma enqueue_by_full msg q :
  admitted (@count_empty Mtype) q ->
  exists q',
    enqueue (Exn:=Exn) msg q = Returned (negb (full q)) q' /\
    msg_queue q' = (if full q then msg_queue q else msg_queue q ++ [msg]).
Proof.
  intros Hadm. rewrite (enqueue_admitted msg Hadm).
  unfold push, full. cbn [msg_queue with_count_empty max_size].
  destruct (size (msg_queue q) =? max_size q);
    eexists; repeat split; reflexivity.
Qed.

(** C2, amended. An admitted [enqueue] that finds the container short of
    [max_size] puts [msg] behind the last message, whichever manipulator is
    active, and returns [true]; one that finds [size() == max_size] returns
    [false] and leaves the container as it was. *)
Theorem enqueue_appends_unless_full msg q :
  admitted (@count_empty Mtype) q ->
  (size (msg_queue q) <> max_size q ->
   exists q', enqueue (Exn:=Exn) msg q = Returned true q' /\
              msg_queue q' = msg_queue q ++ [msg]) /\
  (size (msg_queue q) = max_size q ->
   exists q', enqueue (Exn:=Exn) msg q = Returned false q' /\
              msg_queue q' = msg_queue q).
Proof.
  intros Hadm.
  destruct (enqueue_by_full msg Hadm) as (q' & He & Hq).
  unfold full in *.
  split; intros Hs; exists q'.
  - apply Nat.eqb_neq in Hs. rewrite Hs in *. split; assumption.
  - apply Nat.eqb_eq in Hs. rewrite Hs in *. split; assumption.
Qed.

(** C3, amended. Neither condition raises a fault: an admitted [enqueue]
    that finds the container full returns [false] to its caller, an
    admitted [dequeue_if] that finds it empty returns the empty optional,
    and both leave the container as it was. *)
Theorem full_and_empty_return_normally msg pred q :
  (admitted (@count_empty Mtype) q -> full q = true ->
   exists q', enqueue (Exn:=Exn) msg q = Returned false q' /\
              msg_queue q' = msg_queue q) /\
  (admitted (@count_full Mtype) q -> empty (msg_queue q) = true ->
   exists q', dequeue_if pred q = Returned None q' /\
              msg_queue q' = msg_queue q).
Proof.
  split; intros Hadm Hc.
  - destruct (enqueue_by_full msg Hadm) as (q' & He & Hq).
    rewrite Hc in *. exists q'. split; assumption.
  - rewrite (dequeue_if_admitted pred Hadm).
    unfold dequeue_if_body. cbn [msg_queue with_count_full].
    rewrite Hc. eexists; split; reflexivity.
Qed.

(** *** set_mode and mode *)

(** C7. [set_mode], whatever value it is given, leaves the container, its
    order, the capacity and both semaphores as they were; the only member
    it can replace is the manipulator, which decides the end that later
    [get] and [pop] use. *)
Theorem set_mode_keeps_messages (new_mode : Mode) q :
  msg_queue (set_mode new_mode q) = msg_queue q /\
  max_size (set_mode new_mode q) = max_size q /\
  count_full (set_mode new_mode q) = count_full q /\
  count_empty (set_mode new_mode q) = count_empty q /\
  queue_manipulator (set_mode FIFO q) = QueueManipulatorFIFO /\
  queue_manipulator (set_mode LIFO q) = QueueManipulatorLIFO.
Proof.
  unfold set_mode.
  destruct new_mode as [|[p|p|]|p]; repeat split.
Qed.

(** C10. A [set_mode] whose argument is neither enumerator changes
    nothing, so the state after it is the state before it; and the mode a
    queue reports, before or after any [set_mode], is FIFO or LIFO. *)
Theorem set_mode_other_value_is_noop (new_mode : Mode) q :
  (new_mode <> FIFO -> new_mode <> LIFO -> set_mode new_mode q = q) /\
  (mode q = FIFO \/ mode q = LIFO) /\
  (mode (set_mode new_mode q) = FIFO \/ mode (set_mode new_mode q) = LIFO).
Proof.
  assert (Hm : forall q0 : Queue Mtype, mode q0 = FIFO \/ mode q0 = LIFO).
  { intros q0. unfold mode. destruct (queue_manipulator q0); [left|right]; reflexivity. }
  split; [|split; apply Hm].
  unfold set_mode, FIFO, LIFO.
  destruct new_mode as [|[p|p|]|p]; intros H0 H1; congruence.
Qed.

(** *** Runs *)

(** One call, whatever it is: the capacity stays, only [set_mode] touches
    the manipulator, no call steps outside the container's preconditions,
    and an occupancy within the capacity stays within it. *)
Lemma perform_effect (c : Call Mtype Exn) q :
  max_size (snd (perform c q)) = max_size q /\
  (is_set_mode c = false ->
   queue_manipulator (snd (perform c q)) = queue_manipulator q) /\
  fst (perform c q) <> CallUndefined /\
  (size (msg_queue q) <= max_size q ->
   size (msg_queue (snd (perform c q))) <= max_size q).
Proof.
  destruct c as [msg|pred|new_mode]; cbn [perform is_set_mode].
  - unfold enqueue, Synchronizer.
    destruct (sem.wait (count_empty q)) as [s|]; cbn [settle fst snd];
      [|repeat split; [discriminate|tauto]].
    unfold push, full. cbn [msg_queue with_count_empty max_size].
    destruct (size (msg_queue q) =? max_size q) eqn:E; cbn;
      repeat split; try discriminate; try tauto.
    apply Nat.eqb_neq in E. unfold size, manipulator_push, push_back in *.
    rewrite length_app. cbn. lia.
  - unfold dequeue_if, Synchronizer.
    destruct (sem.wait (count_full q)) as [s|]; cbn [settle fst snd];
      [|repeat split; [discriminate|tauto]].
    unfold dequeue_if_body, pop.
    cbn [msg_queue with_count_full queue_manipulator].
    destruct (empty (msg_queue q)) eqn:E; cbn [settle fst snd];
      [repeat split; [discriminate|tauto]|].
    destruct (manipulator_visible (queue_manipulator q) _ E)
      as (m & rest & -> & -> & Hl).
    destruct (pred m) as [e|[|]]; cbn;
      repeat split; try discriminate; try tauto.
    unfold size in *. lia.
  - cbn [fst snd]. unfold set_mode.
    destruct new_mode as [|[p|p|]|p]; cbn;
      repeat split; try discriminate; tauto.
Qed.

Lemma run_effect (calls : list (Call Mtype Exn)) q :
  max_size (snd (run calls q)) = max_size q /\
  (existsb (@is_set_mode Mtype Exn) calls = false ->
   queue_manipulator (snd (run calls q)) = queue_manipulator q) /\
  ~ In CallUndefined (fst (run calls q)) /\
  (size (msg_queue q) <= max_size q ->
   size (msg_queue (snd (run calls q))) <= max_size q).
Proof.
  revert q. induction calls as [|c rest IH]; intros q; cbn [run].
  - cbn. repeat split; auto.
  - destruct (perform c q) as [r q1] eqn:P.
    destruct (run rest q1) as [rs q2] eqn:R.
    destruct (perform_effect c q) as (Hm & Hk & Hu & Hs).
    destruct (IH q1) as (Hm' & Hk' & Hu' & Hs').
    rewrite P in *. rewrite R in *. cbn [fst snd existsb] in *.
    repeat split.
    + congruence.
    + intros H. apply orb_false_iff in H. destruct H as [Hc Hr].
      rewrite (Hk' Hr). auto.
    + intros [H|H]; [congruence|contradiction].
    + intros H. rewrite <- Hm. apply Hs'. rewrite Hm. auto.
Qed.

(** C4. Take a queue built over an empty container with capacity [C] and
    any sequence of calls on it.  After each of them (after the first [k]
    calls, for every [k]) the occupancy of the container lies between 0
    and [C]; no call of the sequence pops an empty container. *)
Theorem occupancy_within_capacity (C : nat) (calls : list (Call Mtype Exn)) (k : nat) :
  0 <= size (msg_queue (snd (run (firstn k calls) (Queue_new [] (Some C))))) <= C /\
  ~ In CallUndefined (fst (run (firstn k calls) (Queue_new [] (Some C)))).
Proof.
  destruct (run_effect (firstn k calls) (Queue_new [] (Some C)))
    as (_ & _ & Hu & Hs).
  cbn [Queue_new max_size msg_queue size length] in Hs.
  repeat split; [lia | apply Hs; lia | exact Hu].
Qed.

(** C9. A queue built without a capacity argument has capacity 1000.
    Whatever the capacity argument, the queue reports LIFO when built, and
    goes on reporting LIFO after any calls none of which is [set_mode]. *)
Theorem fresh_queue_defaults messq (max_size_ : option nat)
    (calls : list (Call Mtype Exn)) :
  max_size (Queue_new messq None) = 1000 /\
  mode (Queue_new messq max_size_) = LIFO /\
  (existsb (@is_set_mode Mtype Exn) calls = false ->
   mode (snd (run calls (Queue_new messq max_size_))) = LIFO).
Proof.
  repeat split.
  intros H. unfold mode.
  destruct (run_effect calls (Queue_new messq max_size_)) as (_ & Hk & _).
  rewrite (Hk H). reflexivity.
Qed.

(** *** Order of removal *)

Lemma run_app (calls1 calls2 : list (Call Mtype Exn)) q :
  run (calls1 ++ calls2) q =
  (fst (run calls1 q) ++ fst (run calls2 (snd (run calls1 q))),
   snd (run calls2 (snd (run calls1 q)))).
Proof.
  revert q. induction calls1 as [|c rest IH]; intros q; cbn [app run].
  - cbn. destruct (run calls2 q); reflexivity.
  - destruct (perform c q) as [r q1]. rewrite IH.
    destruct (run rest q1) as [rs q2]. reflexivity.
Qed.

(** One admitted [enqueue] with room left, on explicit members. *)
Lemma perform_enqueue_room man messq msg n bf cf be ce :
  length messq <> n ->
  perform (Enqueue (Exn:=Exn) msg)
          (mkQueue man messq n (sem.mkSemaphore bf cf) (sem.mkSemaphore be (S ce))) =
  (EnqueueReturned true,
   mkQueue man (messq ++ [msg]) n (sem.mkSemaphore bf (S cf)) (sem.mkSemaphore be ce)).
Proof.
  intros Hn. apply Nat.eqb_neq in Hn. cbn [perform].
  unfold enqueue, Synchronizer, push, full, size.
  cbn [sem.wait sem.count sem.bound count_empty count_full msg_queue max_size
       with_count_empty with_count_full queue_manipulator].
  rewrite Hn. reflexivity.
Qed.

(** Enqueuing [ms] one after the other while tokens and room last. *)
Lemma run_enqueues ms : forall man messq n bf cf be ce,
  length messq + length ms <= n -> length ms <= ce ->
  run (map (Enqueue (Exn:=Exn)) ms)
      (mkQueue man messq n (sem.mkSemaphore bf cf) (sem.mkSemaphore be ce)) =
  (map (fun _ => EnqueueReturned true) ms,
   mkQueue man (messq ++ ms) n
           (sem.mkSemaphore bf (cf + length ms))
           (sem.mkSemaphore be (ce - length ms))).
Proof.
  induction ms as [|m ms IH]; intros man messq n bf cf be ce Hn Hc.
  - cbn. rewrite app_nil_r, Nat.add_0_r, Nat.sub_0_r. reflexivity.
  - cbn [length] in Hn, Hc. destruct ce as [|ce]; [lia|].
    cbn [map run].
    rewrite perform_enqueue_room by lia.
    rewrite IH; [|rewrite length_app; cbn; lia|lia].
    cbn [length]. rewrite <- app_assoc, Nat.add_succ_comm, Nat.sub_succ.
    reflexivity.
Qed.

(** One admitted, accepting [dequeue_if] on explicit members. *)
Lemma perform_dequeue_accept man messq m rest n bf cf be ce :
  manipulator_get man messq = Some m ->
  manipulator_pop man messq = Some rest ->
  empty messq = false ->
  perform (DequeueIf (always (Exn:=Exn) true))
          (mkQueue man messq n (sem.mkSemaphore bf (S cf)) (sem.mkSemaphore be ce)) =
  (DequeueReturned (Some (Destroyed m)),
   mkQueue man rest n (sem.mkSemaphore bf cf) (sem.mkSemaphore be (S ce))).
Proof.
  intros Hg Hp He. cbn [perform].
  unfold dequeue_if, Synchronizer, dequeue_if_body, pop.
  cbn [sem.wait sem.count sem.bound count_empty count_full msg_queue max_size
       with_count_empty with_count_full queue_manipulator].
  rewrite He, Hg. cbn [always]. rewrite Hp. reflexivity.
Qed.

(** Under the FIFO manipulator the messages leave from the front. *)
Lemma run_dequeues_FIFO ms : forall rest n bf cf be ce,
  length ms <= cf ->
  run (repeat (DequeueIf (always (Exn:=Exn) true)) (length ms))
      (mkQueue QueueManipulatorFIFO (ms ++ rest) n
               (sem.mkSemaphore bf cf) (sem.mkSemaphore be ce)) =
  (map (fun m => DequeueReturned (Some (Destroyed m))) ms,
   mkQueue QueueManipulatorFIFO rest n
           (sem.mkSemaphore bf (cf - length ms))
           (sem.mkSemaphore be (ce + length ms))).
Proof.
  induction ms as [|m ms IH]; intros rest n bf cf be ce Hc.
  - cbn. rewrite Nat.add_0_r, Nat.sub_0_r. reflexivity.
  - cbn [length] in Hc. destruct cf as [|cf]; [lia|].
    cbn [length repeat run map app].
    rewrite (@perform_dequeue_accept QueueManipulatorFIFO (m :: ms ++ rest) m
               (ms ++ rest)); try reflexivity.
    rewrite IH by lia.
    rewrite Nat.sub_succ, Nat.add_succ_comm. reflexivity.
Qed.

(** Under the LIFO manipulator they leave from the back. *)
Lemma run_dequeues_LIFO ms : forall rest n bf cf be ce,
  length ms <= cf ->
  run (repeat (DequeueIf (always (Exn:=Exn) true)) (length ms))
      (mkQueue QueueManipulatorLIFO (rest ++ ms) n
               (sem.mkSemaphore bf cf) (sem.mkSemaphore be ce)) =
  (map (fun m => DequeueReturned (Some (Destroyed m))) (rev ms),
   mkQueue QueueManipulatorLIFO rest n
           (sem.mkSemaphore bf (cf - length ms))
           (sem.mkSemaphore be (ce + length ms))).
Proof.
  induction ms as [|m ms IH] using rev_ind; intros rest n bf cf be ce Hc.
  - cbn. rewrite app_nil_r, Nat.add_0_r, Nat.sub_0_r. reflexivity.
  - rewrite length_app in Hc |- *. cbn [length] in Hc |- *.
    rewrite Nat.add_1_r in Hc |- *. destruct cf as [|cf]; [lia|].
    rewrite rev_unit, app_assoc.
    cbn [repeat run map].
    rewrite (@perform_dequeue_accept QueueManipulatorLIFO ((rest ++ ms) ++ [m]) m
               (rest ++ ms)).
    + rewrite IH by lia.
      rewrite Nat.sub_succ, Nat.add_succ_comm. reflexivity.
    + apply back_snoc.
    + apply pop_back_snoc.
    + apply empty_snoc.
Qed.

(** *** Every way a call can end *)

Lemma manipulator_visible_end man messq :
  empty messq = false ->
  exists m rest,
    manipulator_get man messq = Some m /\
    manipulator_pop man messq = Some rest /\
    ((man = QueueManipulatorFIFO /\ messq = m :: rest) \/
     (man = QueueManipulatorLIFO /\ messq = rest ++ [m])).
Proof.
  intros He. destruct man.
  - destruct messq as [|x l]; [discriminate|].
    exists x, l. repeat split. left. split; reflexivity.
  - destruct (exists_last (l:=messq)) as (l' & a & ->).
    { intros ->. discriminate. }
    exists a, l'. cbn [manipulator_get manipulator_pop].
    rewrite back_snoc, pop_back_snoc. repeat split. right. split; reflexivity.
Qed.

Lemma next_visible_size q m rest :
  next_visible q m rest -> size (msg_queue q) = S (size rest).
Proof.
  unfold size. intros [[_ ->]|[_ ->]]; [reflexivity|].
  rewrite length_app. cbn. lia.
Qed.

Lemma next_visible_unique q m rest m' rest' :
  next_visible q m rest -> next_visible q m' rest' -> m = m' /\ rest = rest'.
Proof.
  intros [[Hm Hq]|[Hm Hq]] [[Hm' Hq']|[Hm' Hq']];
    try (rewrite Hm in Hm'; discriminate).
  - rewrite Hq in Hq'. injection Hq' as -> ->. split; reflexivity.
  - rewrite Hq in Hq'. apply app_inj_tail in Hq'. destruct Hq' as [-> ->].
    split; reflexivity.
Qed.

Lemma next_visible_same q q' m rest :
  msg_queue q' = msg_queue q -> queue_manipulator q' = queue_manipulator q ->
  next_visible q m rest -> next_visible q' m rest.
Proof. unfold next_visible, mode. intros -> ->. exact (fun H => H). Qed.

Lemma wait_cases (s : sem.Semaphore) :
  (sem.count s = 0 /\ sem.wait s = None) \/
  (sem.count s <> 0 /\
   sem.wait s = Some (sem.mkSemaphore (sem.bound s) (Nat.pred (sem.count s)))).
Proof.
  unfold sem.wait. destruct (sem.count s); [left|right]; split;
    try reflexivity; discriminate.
Qed.

(** [enqueue]: blocked, turned away by [full()], or appended. *)
Lemma enqueue_cases msg q :
  (sem.count (count_empty q) = 0 /\ enqueue (Exn:=Exn) msg q = Blocked) \/
  (admitted (@count_empty Mtype) q /\ full q = true /\
   enqueue (Exn:=Exn) msg q = Returned false (enqueue_exit q)) \/
  (admitted (@count_empty Mtype) q /\ full q = false /\
   enqueue (Exn:=Exn) msg q =
   Returned true (with_msg_queue (msg_queue q ++ [msg]) (enqueue_exit q))).
Proof.
  unfold enqueue, Synchronizer, admitted.
  destruct (wait_cases (count_empty q)) as [[H0 ->]|[Hn ->]].
  - left. split; [exact H0|reflexivity].
  - right. unfold push, full. cbn [msg_queue with_count_empty max_size].
    destruct (size (msg_queue q) =? max_size q); [left|right];
      repeat split; assumption.
Qed.

(** [dequeue_if]: blocked, on an empty container, or decided by the
    predicate on the visible message. *)
Lemma dequeue_if_cases pred q :
  (sem.count (count_full q) = 0 /\ dequeue_if pred q = Blocked) \/
  (admitted (@count_full Mtype) q /\ msg_queue q = [] /\
   dequeue_if pred q = Returned None (dequeue_exit q)) \/
  (admitted (@count_full Mtype) q /\
   exists m rest, next_visible q m rest /\
     ((pred m = inr true /\
       dequeue_if pred q =
       Returned (Some (Destroyed m)) (with_msg_queue rest (dequeue_exit q))) \/
      (pred m = inr false /\ dequeue_if pred q = Returned None (dequeue_exit q)) \/
      (exists e, pred m = inl e /\ dequeue_if pred q = Thrown e (dequeue_exit q)))).
Proof.
  unfold dequeue_if, Synchronizer, admitted.
  destruct (wait_cases (count_full q)) as [[H0 ->]|[Hn ->]].
  - left. split; [exact H0|reflexivity].
  - right. unfold dequeue_if_body, pop.
    cbn [msg_queue with_count_full queue_manipulator].
    destruct (empty (msg_queue q)) eqn:E.
    + left. destruct (msg_queue q); [|discriminate]. repeat split; assumption.
    + right. split; [exact Hn|].
      destruct (manipulator_visible_end (queue_manipulator q) _ E)
        as (m & rest & -> & -> & Hend).
      exists m, rest. split.
      * unfold next_visible, mode.
        destruct Hend as [[-> Hq]|[-> Hq]]; [left|right]; split;
          try reflexivity; exact Hq.
      * destruct (pred m) as [e|[|]].
        -- right. right. exists e. split; reflexivity.
        -- left. split; reflexivity.
        -- right. left. split; reflexivity.
Qed.

(** *** What a returned value tells *)

(** X1. What a return of [dequeue_if] tells.  A returned value is never
    a copy of a live element: it is always copied from an element [pop()]
    has already destroyed; that element was the visible one, the predicate
    had accepted it, and the container is the container without it.  An
    empty optional leaves the container as it was and means either an
    empty container or a message the predicate rejected.  In both cases
    capacity and manipulator are as before. *)
Theorem dequeue_if_return_sound pred q (v : option (Copied Mtype)) q' :
  dequeue_if pred q = Returned v q' ->
  max_size q' = max_size q /\ queue_manipulator q' = queue_manipulator q /\
  match v with
  | Some c =>
      exists m, c = Destroyed m /\ pred m = inr true /\
                next_visible q m (msg_queue q')
  | None =>
      msg_queue q' = msg_queue q /\
      (msg_queue q = [] \/
       exists m rest, next_visible q m rest /\ pred m = inr false)
  end.
Proof.
  intros H.
  destruct (dequeue_if_cases pred q)
    as [[_ Hb]|[(_ & He & Hr)|(_ & m & rest & Hv & [[Hp Hr]|[[Hp Hr]|(e & Hp & Hr)]])]];
    rewrite H in *; try discriminate; injection Hr as -> ->.
  - repeat split. left. exact He.
  - repeat split. exists m. repeat split; assumption.
  - repeat split. right. exists m, rest. split; assumption.
Qed.

(** X2. The container loses no message and gains none of its own.  Over
    any sequence of calls from any state, the messages in the container at
    the start together with those [enqueue] took in are, up to order, the
    messages [dequeue_if] popped together with those in the container at
    the end. *)
Theorem messages_conserved (calls : list (Call Mtype Exn)) q :
  Permutation
    (msg_queue q ++ accepted_all calls (fst (run calls q)))
    (removed_all (fst (run calls q)) ++ msg_queue (snd (run calls q))).
Proof.
  revert q. induction calls as [|c rest IH]; intros q.
  - cbn. rewrite app_nil_r. apply Permutation_refl.
  - cbn [run].
    assert (Hstep : Permutation
              (msg_queue q ++ accepted c (fst (perform c q)))
              (removed (fst (perform c q)) ++ msg_queue (snd (perform c q)))).
    { destruct c as [msg|pred|new_mode]; cbn [perform].
      - destruct (enqueue_cases msg q) as [[_ ->]|[(_ & _ & ->)|(_ & _ & ->)]];
          cbn; rewrite ?app_nil_r; apply Permutation_refl.
      - destruct (dequeue_if_cases pred q)
          as [[_ ->]|[(_ & _ & ->)|(_ & m & l & Hv & [[_ ->]|[[_ ->]|(e & _ & ->)]])]];
          cbn; rewrite ?app_nil_r; try apply Permutation_refl.
        destruct Hv as [[_ ->]|[_ ->]]; [apply Permutation_refl|].
        apply Permutation_sym, Permutation_cons_append.
      - cbn. rewrite app_nil_r.
        unfold set_mode. destruct new_mode as [|[p|p|]|p]; apply Permutation_refl. }
    destruct (perform c q) as [r q1]. cbn [fst snd] in Hstep.
    specialize (IH q1). destruct (run rest q1) as [rs q2].
    cbn [fst snd accepted_all removed_all flat_map] in *.
    rewrite (app_assoc (msg_queue q)), <- (app_assoc (removed r)).
    eapply Permutation_trans; [apply Permutation_app_tail, Hstep|].
    rewrite <- app_assoc. apply Permutation_app_head. exact IH.
Qed.

(** X3. The capacity is fixed for the life of the queue: [Queue::size()]
    returns after any sequence of calls what it returned before, which for
    a queue just built is the constructor's argument, however many
    messages the container holds by then. *)
Theorem capacity_is_fixed (calls : list (Call Mtype Exn)) q (C : nat) messq :
  Queue_size (snd (run calls q)) = Queue_size q /\
  Queue_size (snd (run calls (Queue_new messq (Some C)))) = C.
Proof.
  unfold Queue_size. split.
  - apply run_effect.
  - destruct (run_effect calls (Queue_new messq (Some C))) as (-> & _).
    reflexivity.
Qed.

(** X4. A message nobody accepts blocks the line.  While the visible
    message is rejected by every predicate tried, no [dequeue_if] returns
    a message or looks past it: every reply is an empty optional or a
    blocked call, and the container is as before however many are made. *)
Theorem rejected_message_blocks_the_line (preds : list (Predicate Mtype Exn)) q m rest :
  next_visible q m rest ->
  Forall (fun pred => pred m = inr false) preds ->
  msg_queue (snd (run (map (@DequeueIf Mtype Exn) preds) q)) = msg_queue q /\
  Forall (fun r => r = DequeueReturned None \/ r = CallBlocked)
         (fst (run (map (@DequeueIf Mtype Exn) preds) q)).
Proof.
  intros Hv Hall. revert q Hv.
  induction Hall as [|pred preds Hp _ IH]; intros q Hv.
  - cbn. split; [reflexivity|constructor].
  - cbn [map run perform].
    assert (Hstep : exists r q1,
               settle DequeueReturned q (dequeue_if pred q) = (r, q1) /\
               (r = DequeueReturned None \/ r = CallBlocked) /\
               msg_queue q1 = msg_queue q /\
               queue_manipulator q1 = queue_manipulator q).
    { destruct (dequeue_if_cases pred q)
        as [[_ ->]|[(_ & He & ->)|(_ & m' & l & Hv' & Hc)]].
      - exists CallBlocked, q. repeat split. right. reflexivity.
      - exists (DequeueReturned None), (dequeue_exit q). repeat split.
        left. reflexivity.
      - destruct (next_visible_unique Hv Hv') as [<- <-].
        destruct Hc as [[Hp' _]|[[_ ->]|(e & Hp' & _)]];
          try (rewrite Hp in Hp'; discriminate).
        exists (DequeueReturned None), (dequeue_exit q). repeat split.
        left. reflexivity. }
    destruct Hstep as (r & q1 & -> & Hr & Hq & Hm).
    destruct (IH q1 (next_visible_same q1 Hq Hm Hv)) as [Hb Hrs].
    destruct (run (map (@DequeueIf Mtype Exn) preds) q1) as [rs q2].
    cbn [fst snd] in *. split; [congruence|].
    constructor; assumption.
Qed.

(** *** The two counters against the container *)

(** One call keeps: no more item tokens than messages, and as many tokens
    in all as the capacity. *)
Lemma perform_tokens (c : Call Mtype Exn) q :
  sem.count (count_full q) <= size (msg_queue q) ->
  sem.count (count_full q) + sem.count (count_empty q) = max_size q ->
  sem.count (count_full (snd (perform c q)))
    <= size (msg_queue (snd (perform c q))) /\
  sem.count (count_full (snd (perform c q)))
    + sem.count (count_empty (snd (perform c q))) = max_size (snd (perform c q)).
Proof.
  intros Hle Hsum.
  destruct c as [msg|pred|new_mode]; cbn [perform].
  - destruct (enqueue_cases msg q) as [[_ ->]|[(Ha & Hf & ->)|(Ha & Hf & ->)]];
      cbn [settle snd]; [split; assumption| |]; unfold admitted, full in *;
      cbn; unfold size in *; [apply Nat.eqb_eq in Hf|rewrite length_app; cbn]; lia.
  - destruct (dequeue_if_cases pred q)
      as [[_ ->]|[(Ha & He & ->)|(Ha & m & l & Hv & [[_ ->]|[[_ ->]|(e & _ & ->)]])]];
      cbn [settle snd]; [split; assumption|..]; unfold admitted in *;
      try (apply next_visible_size in Hv); cbn; unfold size in *; lia.
  - cbn [snd]. unfold set_mode.
    destruct new_mode as [|[p|p|]|p]; cbn; split; assumption.
Qed.

Lemma run_tokens (calls : list (Call Mtype Exn)) q :
  sem.count (count_full q) <= size (msg_queue q) ->
  sem.count (count_full q) + sem.count (count_empty q) = max_size q ->
  sem.count (count_full (snd (run calls q)))
    <= size (msg_queue (snd (run calls q))) /\
  sem.count (count_full (snd (run calls q)))
    + sem.count (count_empty (snd (run calls q))) = max_size (snd (run calls q)).
Proof.
  revert q. induction calls as [|c rest IH]; intros q Hle Hsum; cbn [run].
  - cbn. split; assumption.
  - destruct (perform_tokens c q Hle Hsum) as [Hle1 Hsum1].
    destruct (perform c q) as [r q1]. cbn [snd] in *.
    specialize (IH q1 Hle1 Hsum1).
    destruct (run rest q1) as [rs q2]. exact IH.
Qed.

(** X5. With the guard taking a token from one counter on entry and giving
    one to the other on exit: on a queue built over any container, after
    any sequence of calls, [count_full] holds no more tokens than the
    container holds messages, and the two counters together hold as many
    tokens as the capacity. *)
Theorem item_tokens_never_exceed_messages (calls : list (Call Mtype Exn))
    messq (C : nat) :
  sem.count (count_full (snd (run calls (Queue_new messq (Some C)))))
    <= size (msg_queue (snd (run calls (Queue_new messq (Some C))))) /\
  sem.count (count_full (snd (run calls (Queue_new messq (Some C)))))
    + sem.count (count_empty (snd (run calls (Queue_new messq (Some C))))) = C.
Proof.
  destruct (run_tokens calls (Queue_new messq (Some C))) as [Hle Hsum];
    [cbn; lia | reflexivity |].
  destruct (run_effect calls (Queue_new messq (Some C))) as (Hm & _).
  rewrite Hm in Hsum. split; assumption.
Qed.

(** X6. Hence, on a queue reached from its construction by calls alone, an
    admitted [dequeue_if] never meets an empty container: whenever it
    returns the empty optional, a message was visible and the predicate
    rejected it; with a predicate that always accepts it returns a
    message whenever it returns. *)
Theorem no_match_is_a_rejection (calls : list (Call Mtype Exn)) messq
    (max_size_ : option nat) pred q' :
  dequeue_if pred (snd (run calls (Queue_new messq max_size_))) = Returned None q' ->
  exists m rest,
    next_visible (snd (run calls (Queue_new messq max_size_))) m rest /\
    pred m = inr false.
Proof.
  intros H.
  destruct (run_tokens calls (Queue_new messq max_size_)) as [Hle _];
    [cbn; lia | reflexivity |].
  destruct (dequeue_if_cases pred (snd (run calls (Queue_new messq max_size_))))
    as [[_ Hr]|[(Ha & He & _)|(_ & m & rest & Hv & [[_ Hr]|[[Hp _]|(e & _ & Hr)]])]];
    try (rewrite H in Hr; discriminate).
  - unfold admitted in Ha. rewrite He in Hle. cbn in Hle. lia.
  - exists m, rest. split; assumption.
Qed.

(** *** Switching mode while filling *)

Lemma set_mode_members (new_mode : Mode) man messq n (cf ce : sem.Semaphore) :
  exists man', set_mode new_mode (mkQueue man messq n cf ce) =
               mkQueue man' messq n cf ce.
Proof.
  unfold set_mode.
  destruct new_mode as [|[p|p|]|p]; eexists; reflexivity.
Qed.

Lemma run_cons (c : Call Mtype Exn) (rest : list (Call Mtype Exn)) q :
  run (c :: rest) q =
  (fst (perform c q) :: fst (run rest (snd (perform c q))),
   snd (run rest (snd (perform c q)))).
Proof.
  cbn [run]. destruct (perform c q) as [r q1]. cbn [fst snd].
  destruct (run rest q1) as [rs q2]. reflexivity.
Qed.

Lemma perform_set_mode (new_mode : Mode) q :
  perform (SetMode (Exn:=Exn) new_mode) q = (SetModeReturned, set_mode new_mode q).
Proof. reflexivity. Qed.

Lemma run_switching_enqueues (steps : list (Mode * Mtype)) :
  forall man messq n bf cf be ce,
  length messq + length steps <= n -> length steps <= ce ->
  exists man',
    run (switching_enqueues (Exn:=Exn) steps)
        (mkQueue man messq n (sem.mkSemaphore bf cf) (sem.mkSemaphore be ce)) =
    (flat_map (fun _ => [SetModeReturned; EnqueueReturned true]) steps,
     mkQueue man' (messq ++ map snd steps) n
             (sem.mkSemaphore bf (cf + length steps))
             (sem.mkSemaphore be (ce - length steps))).
Proof.
  induction steps as [|[v m] steps IH]; intros man messq n bf cf be ce Hn Hc.
  - exists man. cbn. rewrite app_nil_r, Nat.add_0_r, Nat.sub_0_r. reflexivity.
  - cbn [length] in Hn, Hc. destruct ce as [|ce]; [lia|].
    destruct (set_mode_members v man messq n
                (sem.mkSemaphore bf cf) (sem.mkSemaphore be (S ce))) as [man1 Hs].
    destruct (IH man1 (messq ++ [m]) n bf (S cf) be ce) as [man' Hr];
      [rewrite length_app; cbn; lia | lia |].
    exists man'.
    unfold switching_enqueues in *.
    cbn [flat_map app map length fst snd].
    rewrite run_cons, perform_set_mode. cbn [fst snd]. rewrite Hs.
    rewrite run_cons, perform_enqueue_room by lia. cbn [fst snd].
    rewrite Hr.
    rewrite <- app_assoc, Nat.add_succ_comm, Nat.sub_succ. reflexivity.
Qed.

(** X7. Switching mode between enqueues changes nothing about what is
    stored.  Let every one of at most [C] enqueues into a fresh queue be
    preceded by a [set_mode] with any value at all.  All enqueues return
    [true]; after a final [set_mode(FIFO)] accepting [dequeue_if] calls
    pop the messages in the order they went in, after a final
    [set_mode(LIFO)] in the reverse order, each returning a copy made
    from the element it has just destroyed. *)
Theorem mode_switches_keep_order (C : nat) (steps : list (Mode * Mtype)) :
  length steps <= C ->
  let fill := switching_enqueues (Exn:=Exn) steps in
  let drain := repeat (DequeueIf (always true)) (length steps) in
  let filled := flat_map (fun _ => [SetModeReturned; EnqueueReturned true]) steps in
  fst (run (fill ++ SetMode FIFO :: drain) (Queue_new [] (Some C))) =
    filled ++ SetModeReturned ::
    map (fun m => DequeueReturned (Some (Destroyed m))) (map snd steps) /\
  fst (run (fill ++ SetMode LIFO :: drain) (Queue_new [] (Some C))) =
    filled ++ SetModeReturned ::
    map (fun m => DequeueReturned (Some (Destroyed m))) (rev (map snd steps)).
Proof.
  intros Hn fill drain filled. subst fill drain filled.
  destruct (@run_switching_enqueues steps QueueManipulatorLIFO [] C C 0 C C)
    as [man' Hr]; [cbn; lia | lia |].
  change (Queue_new [] (Some C))
    with (mkQueue QueueManipulatorLIFO (@nil Mtype) C
            (sem.mkSemaphore C 0) (sem.mkSemaphore C C)).
  rewrite !run_app, Hr. cbn [fst snd app].
  rewrite !run_cons, !perform_set_mode. cbn [fst snd app].
  change (set_mode FIFO ?q) with (with_manipulator QueueManipulatorFIFO q).
  change (set_mode LIFO ?q) with (with_manipulator QueueManipulatorLIFO q).
  unfold with_manipulator.
  cbn [queue_manipulator msg_queue max_size count_full count_empty].
  pose proof (@run_dequeues_FIFO (map snd steps) [] C C
                (0 + length (map snd steps)) C (C - length (map snd steps))) as Hf.
  rewrite app_nil_r in Hf.
  pose proof (@run_dequeues_LIFO (map snd steps) [] C C
                (0 + length (map snd steps)) C (C - length (map snd steps))) as Hl.
  cbn [app] in Hl.
  rewrite !length_map in Hf, Hl.
  rewrite Hf, Hl by lia.
  split; reflexivity.
Qed.

(** *** A message put in and taken out again *)

(** The queue an admitted [enqueue] leaves when there was room. *)
Lemma enqueue_room msg q :
  admitted (@count_empty Mtype) q -> full q = false ->
  enqueue (Exn:=Exn) msg q =
  Returned true (with_msg_queue (msg_queue q ++ [msg]) (enqueue_exit q)).
Proof.
  intros Ha Hf.
  destruct (enqueue_cases msg q) as [[H0 _]|[(_ & Hf' & _)|(_ & _ & H)]].
  - contradiction.
  - rewrite Hf in Hf'. discriminate.
  - exact H.
Qed.

(** Where the new message is the visible one, taking it out undoes the
    enqueue, counters included. *)
Lemma put_then_take msg pred q :
  mode q = LIFO \/ msg_queue q = [] ->
  admitted (@count_empty Mtype) q -> pred msg = inr true ->
  dequeue_if pred (with_msg_queue (msg_queue q ++ [msg]) (enqueue_exit q)) =
  Returned (Some (Destroyed msg)) q.
Proof.
  intros Hm Ha Hp.
  set (q1 := with_msg_queue (msg_queue q ++ [msg]) (enqueue_exit q)).
  assert (Hv : next_visible q1 msg (msg_queue q)).
  { destruct Hm as [Hm|He].
    - right. split; [exact Hm|reflexivity].
    - destruct (queue_manipulator q) eqn:M.
      + left. split; [unfold mode; cbn; rewrite M; reflexivity|].
        cbn. rewrite He. reflexivity.
      + right. split; [unfold mode; cbn; rewrite M; reflexivity|reflexivity]. }
  destruct (dequeue_if_cases pred q1)
    as [[H0 _]|[(_ & He & _)|(_ & m & rest & Hv' & Hc)]].
  - cbn in H0. discriminate.
  - cbn in He. destruct (msg_queue q); discriminate.
  - destruct (next_visible_unique Hv Hv') as [<- <-].
    destruct Hc as [[_ ->]|[[Hp' _]|(e & Hp' & _)]];
      try (rewrite Hp in Hp'; discriminate).
    f_equal. unfold admitted in Ha.
    destruct q as [man messq n [bf cf] [be ce]]. cbn in Ha |- *.
    destruct ce as [|ce]; [contradiction|reflexivity].
Qed.

(** X8. An [enqueue] followed by a [dequeue_if] that accepts.  In LIFO
    mode, or on an empty container in either mode, the element popped is
    the one just enqueued and the queue is back in the very state it was
    in, counters included.  In FIFO mode on a container that holds
    messages the oldest element is popped instead, and the new message is
    the last of those that stay.  In both cases the value returned is
    copied from the popped element after its destruction. *)
Theorem enqueue_then_dequeue_if msg pred q :
  admitted (@count_empty Mtype) q -> full q = false ->
  (mode q = LIFO \/ msg_queue q = [] -> pred msg = inr true ->
   exists q1, enqueue (Exn:=Exn) msg q = Returned true q1 /\
              dequeue_if pred q1 = Returned (Some (Destroyed msg)) q) /\
  (forall m0 rest,
      mode q = FIFO -> msg_queue q = m0 :: rest -> pred m0 = inr true ->
      exists q1 q2, enqueue (Exn:=Exn) msg q = Returned true q1 /\
                    dequeue_if pred q1 = Returned (Some (Destroyed m0)) q2 /\
                    msg_queue q2 = rest ++ [msg]).
Proof.
  intros Ha Hf. rewrite (enqueue_room msg Ha Hf). split.
  - intros Hm Hp. eexists. split; [reflexivity|].
    apply put_then_take; assumption.
  - intros m0 rest Hm Hq Hp.
    set (q1 := with_msg_queue (msg_queue q ++ [msg]) (enqueue_exit q)).
    assert (Hv : next_visible q1 m0 (rest ++ [msg])).
    { left. split; [exact Hm|]. cbn. rewrite Hq. reflexivity. }
    destruct (dequeue_if_cases pred q1)
      as [[H0 _]|[(_ & He & _)|(_ & m & l & Hv' & Hc)]].
    + cbn in H0. discriminate.
    + cbn in He. destruct (msg_queue q); discriminate.
    + destruct (next_visible_unique Hv Hv') as [<- <-].
      destruct Hc as [[_ Hr]|[[Hp' _]|(e & Hp' & _)]];
        try (rewrite Hp in Hp'; discriminate).
      exists q1. eexists. split; [reflexivity|]. split; [exact Hr|reflexivity].
Qed.

(** X9. [mode()] reads back what [set_mode] wrote: after [set_mode] with
    one of the two enumerators the queue reports that enumerator; setting
    the mode the queue already reports changes nothing; and of two
    [set_mode] calls in a row only the later one counts when it names an
    enumerator. *)
Theorem set_mode_then_mode (new_mode earlier : Mode) q :
  (new_mode = FIFO \/ new_mode = LIFO -> mode (set_mode new_mode q) = new_mode) /\
  set_mode (mode q) q = q /\
  (new_mode = FIFO \/ new_mode = LIFO ->
   set_mode new_mode (set_mode earlier q) = set_mode new_mode q).
Proof.
  repeat split.
  - intros [->| ->]; reflexivity.
  - destruct q as [[|] messq n cf ce]; reflexivity.
  - intros [->| ->]; unfold set_mode at 2;
      destruct earlier as [|[p|p|]|p]; reflexivity.
Qed.

(** *** Receiver and Producer on a shared queue *)

Lemma nth_error_store_set_other (ref ref' : nat) q (st : Store Mtype) :
  ref <> ref' -> nth_error (store_set ref q st) ref' = nth_error st ref'.
Proof.
  revert ref ref'. induction st as [|q0 st IH]; intros ref ref' Hn.
  - destruct ref; reflexivity.
  - destruct ref as [|ref], ref' as [|ref']; cbn; try reflexivity.
    + contradiction.
    + apply IH. congruence.
Qed.

Lemma store_set_store_set (ref : nat) q q1 (st : Store Mtype) :
  store_set ref q (store_set ref q1 st) = store_set ref q st.
Proof.
  revert ref. induction st as [|q0 st IH]; intros [|ref]; cbn;
    try reflexivity. rewrite IH. reflexivity.
Qed.

Lemma store_set_same (ref : nat) q (st : Store Mtype) :
  nth_error st ref = Some q -> store_set ref q st = st.
Proof.
  revert ref. induction st as [|q0 st IH]; intros [|ref]; cbn;
    try discriminate.
  - intros [= ->]. reflexivity.
  - intros H. rewrite (IH _ H). reflexivity.
Qed.

Lemma nth_error_store_set (ref : nat) q q0 (st : Store Mtype) :
  nth_error st ref = Some q0 -> nth_error (store_set ref q st) ref = Some q.
Proof.
  revert ref. induction st as [|q1 st IH]; intros [|ref]; cbn;
    try discriminate.
  - reflexivity.
  - apply IH.
Qed.

(** X10. A Producer and a Receiver built on the same queue act on that
    one queue.  With the queue in LIFO mode (or empty), a message sent
    through the Producer returns [true] and changes no other queue of the
    store; the Receiver's accepting [dequeue_if] then pops that message,
    returning a copy made from the destroyed element, and the store is as
    it was before the two calls. *)
Theorem facades_share_the_queue (pr : Producer) (rc : Receiver)
    (st : Store Mtype) q msg pred :
  producer_queue pr = receiver_queue rc ->
  nth_error st (producer_queue pr) = Some q ->
  mode q = LIFO \/ msg_queue q = [] ->
  admitted (@count_empty Mtype) q -> full q = false -> pred msg = inr true ->
  exists st1,
    Producer_enqueue (Exn:=Exn) pr msg st = Returned true st1 /\
    (forall other, other <> producer_queue pr ->
                   nth_error st1 other = nth_error st other) /\
    Receiver_dequeue_if rc pred st1 = Returned (Some (Destroyed msg)) st.
Proof.
  intros Href Hq Hm Ha Hf Hp.
  unfold Producer_enqueue, Receiver_dequeue_if, through.
  rewrite <- Href, Hq, (enqueue_room msg Ha Hf).
  eexists. split; [reflexivity|]. split.
  - intros other Ho. apply nth_error_store_set_other. congruence.
  - erewrite nth_error_store_set by exact Hq.
    rewrite put_then_take by assumption. rewrite store_set_store_set.
    rewrite store_set_same by exact Hq. reflexivity.
Qed.

End Properties.

Arguments admitted {Mtype} entry q.
Arguments next_visible {Mtype} q m rest.

(** ** The theorems at work on queues of numbers *)

(** C1, in the code.  A FIFO queue of capacity 2 holding 1 then 2, and a
    [dequeue_if] whose predicate accepts the front.  The front leaves the
    container, as the claim says; but the optional the caller gets is
    copied through [m] after [pop()] destroyed the element [m] refers to,
    so it is not a copy of the message.  The reject half of the claim
    holds: the predicate "is 2" gets no message and the container stays. *)
Theorem dequeue_if_returns_copy_of_destroyed_element :
  let q := snd (run (Exn:=unit) [SetMode FIFO; Enqueue 1; Enqueue 2]
                    (Queue_new [] (Some 2))) in
  admitted (@count_full nat) q /\ next_visible q 1 [2] /\
  dequeue_if (Exn:=unit) (fun m => inr (m =? 1)) q =
    Returned (Some (Destroyed 1))
      (mkQueue QueueManipulatorFIFO [2] 2
               (sem.mkSemaphore 2 1) (sem.mkSemaphore 2 1)) /\
  (forall q', dequeue_if (Exn:=unit) (fun m => inr (m =? 1)) q <>
              Returned (Some (Live 1)) q') /\
  dequeue_if (Exn:=unit) (fun m => inr (m =? 2)) q =
    Returned None
      (mkQueue QueueManipulatorFIFO [1; 2] 2
               (sem.mkSemaphore 2 1) (sem.mkSemaphore 2 1)).
Proof.
  intros q.
  split; [vm_compute; discriminate|].
  split; [left; split; reflexivity|].
  split; [reflexivity|].
  split; [|reflexivity].
  intros q' H. vm_compute in H. discriminate.
Qed.

(** A predicate that raises on 2, at the back of a LIFO queue. *)
Lemma dequeue_if_predicate_raises_witness :
  let q := snd (run (Exn:=nat) [Enqueue 1; Enqueue 2] (Queue_new [] (Some 2))) in
  let pred := fun m : nat => if m =? 2 then inl 42 else inr true in
  admitted (@count_full nat) q /\ next_visible q 2 [1] /\ pred 2 = inl 42 /\
  exists q', dequeue_if pred q = Thrown 42 q' /\ msg_queue q' = [1; 2].
Proof.
  intros q pred.
  assert (Ha : admitted (@count_full nat) q) by (vm_compute; discriminate).
  assert (Hv : next_visible q 2 [1]) by (right; split; reflexivity).
  repeat split; try assumption.
  apply (proj1 (dequeue_if_predicate_raises pred q) 2 [1] 42 Ha Hv).
  reflexivity.
Defined.

(** C2, as stated, fails.  On a queue of capacity 1: [enqueue(1)] fills the
    container; a [dequeue_if] whose predicate rejects removes nothing, yet
    on leaving signals [count_empty]; the next [enqueue(2)] is therefore
    admitted, finds [size() == max_size], returns [false] and appends
    nothing. *)
Lemma enqueue_admitted_returns_false :
  let q := snd (run (Exn:=unit) [Enqueue 1; DequeueIf (always false)]
                    (Queue_new [] (Some 1))) in
  admitted (@count_empty nat) q /\
  (exists q', enqueue (Exn:=unit) 2 q = Returned false q' /\ msg_queue q' = [1]) /\
  ~ (exists q', enqueue (Exn:=unit) 2 q = Returned true q' /\
                msg_queue q' = msg_queue q ++ [2]).
Proof.
  intros q. split; [vm_compute; discriminate|]. split.
  - eexists. split; vm_compute; reflexivity.
  - intros (q' & He & _). vm_compute in He. discriminate.
Qed.

(** Capacity 2 with one message buffered and then with two. *)
Lemma enqueue_appends_unless_full_witness :
  let q1 := snd (run (Exn:=unit) [Enqueue 1] (Queue_new [] (Some 2))) in
  let q2 := snd (run (Exn:=unit) [SetMode FIFO; Enqueue 1; DequeueIf (always false);
                                  Enqueue 2] (Queue_new [] (Some 2))) in
  (admitted (@count_empty nat) q1 /\ size (msg_queue q1) <> max_size q1 /\
   exists q', enqueue (Exn:=unit) 5 q1 = Returned true q' /\ msg_queue q' = [1; 5]) /\
  (admitted (@count_empty nat) q2 /\ size (msg_queue q2) = max_size q2 /\
   exists q', enqueue (Exn:=unit) 5 q2 = Returned false q' /\ msg_queue q' = [1; 2]).
Proof.
  intros q1 q2.
  assert (H1 : admitted (@count_empty nat) q1) by (vm_compute; discriminate).
  assert (H2 : admitted (@count_empty nat) q2) by (vm_compute; discriminate).
  repeat split; try assumption.
  - vm_compute; discriminate.
  - apply (proj1 (enqueue_appends_unless_full unit 5 H1)).
    vm_compute; discriminate.
  - apply (proj2 (enqueue_appends_unless_full unit 5 H2)).
    reflexivity.
Defined.

(** C3, as stated, fails.  On a queue of capacity 2 in FIFO mode, after
    two enqueues separated by a rejected [dequeue_if], a third [enqueue] is
    admitted on a full container: it comes back to its caller with the
    value [false], and the state it leaves holds the same two messages.
    No fault is raised. *)
Lemma full_container_reported_by_return_value :
  let q := snd (run (Exn:=unit) [SetMode FIFO; Enqueue 1; DequeueIf (always false);
                                 Enqueue 2] (Queue_new [] (Some 2))) in
  admitted (@count_empty nat) q /\ full q = true /\
  enqueue (Exn:=unit) 3 q =
    Returned false
      (mkQueue QueueManipulatorFIFO [1; 2] 2
               (sem.mkSemaphore 2 2) (sem.mkSemaphore 2 0)) /\
  perform (Exn:=unit) (Enqueue 3) q =
    (EnqueueReturned false,
     mkQueue QueueManipulatorFIFO [1; 2] 2
             (sem.mkSemaphore 2 2) (sem.mkSemaphore 2 0)).
Proof.
  intros q. split; [vm_compute; discriminate|].
  repeat split; vm_compute; reflexivity.
Qed.

(** The full container as above; the empty one is a state whose
    [count_full] holds a token. *)
Lemma full_and_empty_return_normally_witness :
  let q := snd (run (Exn:=unit) [SetMode FIFO; Enqueue 1; DequeueIf (always false);
                                 Enqueue 2] (Queue_new [] (Some 2))) in
  let q0 := mkQueue QueueManipulatorLIFO (@nil nat) 2
                    (sem.mkSemaphore 2 1) (sem.mkSemaphore 2 1) in
  (admitted (@count_empty nat) q /\ full q = true /\
   exists q', enqueue (Exn:=unit) 3 q = Returned false q' /\
              msg_queue q' = msg_queue q) /\
  (admitted (@count_full nat) q0 /\ empty (msg_queue q0) = true /\
   exists q', dequeue_if (always (Exn:=unit) true) q0 = Returned None q' /\
              msg_queue q' = msg_queue q0).
Proof.
  intros q q0.
  assert (Hq : admitted (@count_empty nat) q) by (vm_compute; discriminate).
  assert (H0 : admitted (@count_full nat) q0) by (vm_compute; discriminate).
  repeat split; try assumption.
  - apply (proj1 (full_and_empty_return_normally (Exn:=unit) 3 (always true) q) Hq).
    reflexivity.
  - apply (proj2 (full_and_empty_return_normally (Exn:=unit) 3 (always true) q0) H0).
    reflexivity.
Defined.

(** C5, in the code.  Three messages through a FIFO queue of capacity 5.
    The elements are popped first in first out, but none of the three
    optionals is a copy of a message: each is copied through the reference
    to the front after [pop_front()] destroyed that element. *)
Theorem fifo_drain_returns_copies_of_destroyed_elements :
  fst (run (Exn:=unit)
           (map Enqueue [10; 20; 30] ++ repeat (DequeueIf (always true)) 3)
           (set_mode FIFO (Queue_new [] (Some 5)))) =
  [EnqueueReturned true; EnqueueReturned true; EnqueueReturned true;
   DequeueReturned (Some (Destroyed 10)); DequeueReturned (Some (Destroyed 20));
   DequeueReturned (Some (Destroyed 30))] /\
  ~ In (DequeueReturned (Some (Live 10)))
       (fst (run (Exn:=unit)
                 (map Enqueue [10; 20; 30] ++ repeat (DequeueIf (always true)) 3)
                 (set_mode FIFO (Queue_new [] (Some 5))))).
Proof.
  split; [reflexivity|].
  vm_compute. intros H.
  repeat (destruct H as [H|H]; [discriminate|]). exact H.
Qed.

(** C6, in the code.  The same three messages through a LIFO queue.  The
    elements are popped last in first out, and again each optional is
    copied through the reference to the back after [pop_back()] destroyed
    that element. *)
Theorem lifo_drain_returns_copies_of_destroyed_elements :
  fst (run (Exn:=unit)
           (map Enqueue [10; 20; 30] ++ repeat (DequeueIf (always true)) 3)
           (set_mode LIFO (Queue_new [] (Some 5)))) =
  [EnqueueReturned true; EnqueueReturned true; EnqueueReturned true;
   DequeueReturned (Some (Destroyed 30)); DequeueReturned (Some (Destroyed 20));
   DequeueReturned (Some (Destroyed 10))] /\
  ~ In (DequeueReturned (Some (Live 30)))
       (fst (run (Exn:=unit)
                 (map Enqueue [10; 20; 30] ++ repeat (DequeueIf (always true)) 3)
                 (set_mode LIFO (Queue_new [] (Some 5))))).
Proof.
  split; [reflexivity|].
  vm_compute. intros H.
  repeat (destruct H as [H|H]; [discriminate|]). exact H.
Qed.

(** A default-built queue after an enqueue and two dequeues. *)
Lemma fresh_queue_defaults_witness :
  let calls := [Enqueue (Exn:=unit) 7; DequeueIf (always false);
                DequeueIf (always true)] in
  existsb (@is_set_mode nat unit) calls = false /\
  mode (snd (run calls (Queue_new [] None))) = LIFO.
Proof.
  intros calls.
  assert (H : existsb (@is_set_mode nat unit) calls = false) by reflexivity.
  split; [exact H|].
  exact (proj2 (proj2 (fresh_queue_defaults [] None calls)) H).
Defined.

(** [set_mode] with the value 7 on a FIFO queue holding one message. *)
Lemma set_mode_other_value_is_noop_witness :
  let q := snd (run (Exn:=unit) [SetMode FIFO; Enqueue 1] (Queue_new [] (Some 3))) in
  7%Z <> FIFO /\ 7%Z <> LIFO /\ set_mode 7%Z q = q /\ mode (set_mode 7%Z q) = FIFO.
Proof.
  intros q.
  assert (H0 : 7%Z <> FIFO) by discriminate.
  assert (H1 : 7%Z <> LIFO) by discriminate.
  split; [exact H0|]. split; [exact H1|]. split.
  - exact (proj1 (set_mode_other_value_is_noop 7%Z q) H0 H1).
  - rewrite (proj1 (set_mode_other_value_is_noop 7%Z q) H0 H1). reflexivity.
Defined.

(** A LIFO queue holding 4 then 9, and a predicate for numbers above 5. *)
Lemma dequeue_if_return_sound_witness :
  let q := snd (run (Exn:=unit) [Enqueue 4; Enqueue 9] (Queue_new [] (Some 3))) in
  let pred := fun m : nat => @inr unit bool (5 <? m) in
  let q' := mkQueue QueueManipulatorLIFO [4] 3
                    (sem.mkSemaphore 3 1) (sem.mkSemaphore 3 2) in
  dequeue_if pred q = Returned (Some (Destroyed 9)) q' /\
  exists m, Destroyed 9 = Destroyed m /\ pred m = inr true /\
            next_visible q m [4].
Proof.
  intros q pred q'.
  assert (H : dequeue_if pred q = Returned (Some (Destroyed 9)) q') by reflexivity.
  split; [exact H|].
  exact (proj2 (proj2 (dequeue_if_return_sound pred q H))).
Defined.

(** A FIFO queue with 0 in front of 5, and two consumers that want 5 and 7. *)
Lemma rejected_message_blocks_the_line_witness :
  let q := snd (run (Exn:=unit) [SetMode FIFO; Enqueue 0; Enqueue 5]
                    (Queue_new [] (Some 3))) in
  let preds := [fun m : nat => @inr unit bool (m =? 5);
                fun m : nat => @inr unit bool (m =? 7)] in
  next_visible q 0 [5] /\
  Forall (fun pred => pred 0 = inr false) preds /\
  msg_queue (snd (run (map (@DequeueIf nat unit) preds) q)) = [0; 5].
Proof.
  intros q preds.
  assert (Hv : next_visible q 0 [5]) by (left; split; reflexivity).
  assert (Hall : Forall (fun pred => pred 0 = inr false) preds)
    by (repeat constructor).
  split; [exact Hv|]. split; [exact Hall|].
  exact (proj1 (rejected_message_blocks_the_line Hv Hall)).
Defined.

(** One message buffered and a predicate that rejects everything. *)
Lemma no_match_is_a_rejection_witness :
  let q := snd (run (Exn:=unit) [Enqueue 3] (Queue_new [] (Some 2))) in
  let q' := mkQueue QueueManipulatorLIFO [3] 2
                    (sem.mkSemaphore 2 0) (sem.mkSemaphore 2 2) in
  dequeue_if (always (Exn:=unit) false) q = Returned None q' /\
  exists m rest, next_visible q m rest /\ always (Exn:=unit) false m = inr false.
Proof.
  intros q q'.
  assert (H : dequeue_if (always (Exn:=unit) false) q = Returned None q')
    by reflexivity.
  split; [exact H|].
  exact (no_match_is_a_rejection [Enqueue 3] [] (Some 2) (always false) H).
Defined.

(** Three enqueues, each after a [set_mode]: with 7, with FIFO, with LIFO. *)
Lemma mode_switches_keep_order_witness :
  let steps := [(7%Z, 10); (FIFO, 20); (LIFO, 30)] in
  length steps <= 3 /\
  fst (run (Exn:=unit)
           (switching_enqueues steps ++
            SetMode FIFO :: repeat (DequeueIf (always true)) 3)
           (Queue_new [] (Some 3))) =
  [SetModeReturned; EnqueueReturned true; SetModeReturned; EnqueueReturned true;
   SetModeReturned; EnqueueReturned true; SetModeReturned;
   DequeueReturned (Some (Destroyed 10)); DequeueReturned (Some (Destroyed 20));
   DequeueReturned (Some (Destroyed 30))].
Proof.
  intros steps.
  assert (H : length steps <= 3) by (cbn; lia).
  split; [exact H|].
  exact (proj1 (mode_switches_keep_order unit steps H)).
Defined.

(** Enqueuing 2 onto a queue that holds 1, in LIFO and in FIFO mode. *)
Lemma enqueue_then_dequeue_if_witness :
  let ql := snd (run (Exn:=unit) [Enqueue 1] (Queue_new [] (Some 3))) in
  let qf := snd (run (Exn:=unit) [SetMode FIFO; Enqueue 1] (Queue_new [] (Some 3))) in
  admitted (@count_empty nat) ql /\ full ql = false /\
  (exists q1, enqueue (Exn:=unit) 2 ql = Returned true q1 /\
              dequeue_if (always (Exn:=unit) true) q1 =
              Returned (Some (Destroyed 2)) ql) /\
  admitted (@count_empty nat) qf /\ full qf = false /\
  (exists q1 q2, enqueue (Exn:=unit) 2 qf = Returned true q1 /\
                 dequeue_if (always (Exn:=unit) true) q1 =
                 Returned (Some (Destroyed 1)) q2 /\
                 msg_queue q2 = [2]).
Proof.
  intros ql qf.
  assert (Hl : admitted (@count_empty nat) ql) by (vm_compute; discriminate).
  assert (Hf : admitted (@count_empty nat) qf) by (vm_compute; discriminate).
  assert (Fl : full ql = false) by reflexivity.
  assert (Ff : full qf = false) by reflexivity.
  split; [exact Hl|]. split; [exact Fl|]. split.
  - apply (proj1 (enqueue_then_dequeue_if (Exn:=unit) 2 (always true) Hl Fl)).
    + left. reflexivity.
    + reflexivity.
  - split; [exact Hf|]. split; [exact Ff|].
    apply (proj2 (enqueue_then_dequeue_if (Exn:=unit) 2 (always true) Hf Ff) 1 []);
      reflexivity.
Defined.

(** [set_mode(FIFO)] on a fresh queue, directly and after [set_mode(7)]. *)
Lemma set_mode_then_mode_witness :
  let q := Queue_new (@nil nat) (Some 4) in
  (FIFO = FIFO \/ FIFO = LIFO) /\
  mode (set_mode FIFO q) = FIFO /\
  set_mode FIFO (set_mode 7%Z q) = set_mode FIFO q.
Proof.
  intros q.
  assert (H : FIFO = FIFO \/ FIFO = LIFO) by (left; reflexivity).
  split; [exact H|]. split.
  - exact (proj1 (set_mode_then_mode FIFO 7%Z q) H).
  - exact (proj2 (proj2 (set_mode_then_mode FIFO 7%Z q)) H).
Defined.

(** Two queues in the store; both facades refer to the second. *)
Lemma facades_share_the_queue_witness :
  let q := Queue_new (@nil nat) (Some 5) in
  let st := [Queue_new (@nil nat) (Some 2); q] in
  let pr := mkProducer 1 in
  let rc := mkReceiver 1 in
  producer_queue pr = receiver_queue rc /\
  nth_error st (producer_queue pr) = Some q /\
  (mode q = LIFO \/ msg_queue q = []) /\
  admitted (@count_empty nat) q /\ full q = false /\
  exists st1,
    Producer_enqueue (Exn:=unit) pr 8 st = Returned true st1 /\
    (forall other, other <> producer_queue pr ->
                   nth_error st1 other = nth_error st other) /\
    Receiver_dequeue_if rc (always (Exn:=unit) true) st1 =
    Returned (Some (Destroyed 8)) st.
Proof.
  intros q st pr rc.
  assert (Hr : producer_queue pr = receiver_queue rc) by reflexivity.
  assert (Hq : nth_error st (producer_queue pr) = Some q) by reflexivity.
  assert (Hm : mode q = LIFO \/ msg_queue q = []) by (left; reflexivity).
  assert (Ha : admitted (@count_empty nat) q) by (vm_compute; discriminate).
  assert (Hf : full q = false) by reflexivity.
  split; [exact Hr|]. split; [exact Hq|]. split; [exact Hm|].
  split; [exact Ha|]. split; [exact Hf|].
  exact (facades_share_the_queue (Exn:=unit) pr rc st 8 (always true)
           Hr Hq Hm Ha Hf eq_refl).
Defined.

End mq.

(** ** The two listeners of message_queue.cpp *)

Module listeners.

Import app.
Import Ascii String.

Implicit Types (message : Action).

(** X11. The two listeners split the actions between them: ListenerOne
    consumes exactly the actions of value 1 to 3, ListenerTwo exactly
    those of value 4 to 7; no action is consumed by both, and the only
    action neither consumes is [ACTION_NONE]. *)
Theorem listeners_split_the_actions message :
  (ListenerOne_consumed message = true <-> (1 <= Action_to_int message <= 3)%Z) /\
  (ListenerTwo_consumed message = true <-> (4 <= Action_to_int message <= 7)%Z) /\
  ListenerOne_consumed message && ListenerTwo_consumed message = false /\
  (ListenerOne_consumed message || ListenerTwo_consumed message = false <->
   message = ACTION_NONE).
Proof.
  destruct message; cbn; repeat split; intros; try lia; try reflexivity;
    discriminate.
Qed.

(** X12. What [process] writes agrees with what the listener consumes:
    each task writes its "None" line exactly for the actions its listener
    does not consume.  The line ListenerTaskOne writes tells the consumed
    actions apart; the line ListenerTaskTwo writes does so except for
    [ACTION_4] and [ACTION_5], for which it writes the same text. *)
Theorem process_agrees_with_consumed (a b : Action) :
  (ListenerTaskOne_process a =
     String.append "ListenerOne consume action: None"%string newline <->
   ListenerOne_consumed a = false) /\
  (ListenerTaskTwo_process a =
     String.append "ListenerTwo consume action: None"%string newline <->
   ListenerTwo_consumed a = false) /\
  (ListenerOne_consumed a = true ->
   ListenerTaskOne_process a = ListenerTaskOne_process b -> a = b) /\
  (ListenerTwo_consumed a = true ->
   ListenerTaskTwo_process a = ListenerTaskTwo_process b ->
   a = b \/ (a = ACTION_4 /\ b = ACTION_5) \/ (a = ACTION_5 /\ b = ACTION_4)).
Proof.
  repeat split.
  - destruct a; cbn; intros H; try reflexivity; discriminate.
  - destruct a; cbn; intros H; try reflexivity; discriminate.
  - destruct a; cbn; intros H; try reflexivity; discriminate.
  - destruct a; cbn; intros H; try reflexivity; discriminate.
  - destruct a; cbn; intros Ha; try discriminate;
      destruct b; cbn; intros H; try reflexivity; discriminate.
  - destruct a; cbn; intros Ha; try discriminate;
      destruct b; cbn; intros H; try discriminate; tauto.
Qed.

(** X13. [operator<<] writes one character, the decimal digit of the
    action's value, so different actions are written differently. *)
Theorem Action_print_is_a_digit (a b : Action) :
  Action_print a =
    String.String (Ascii.ascii_of_nat (48 + Z.to_nat (Action_to_int a)))
                  String.EmptyString /\
  (Action_print a = Action_print b -> a = b).
Proof.
  split.
  - destruct a; reflexivity.
  - destruct a, b; intros H; try reflexivity; vm_compute in H; discriminate.
Qed.

(** [ACTION_2] against itself, and [ACTION_5] against [ACTION_4]. *)
Lemma process_agrees_with_consumed_witness :
  ListenerOne_consumed ACTION_2 = true /\
  ListenerTwo_consumed ACTION_5 = true /\
  ListenerTaskTwo_process ACTION_5 = ListenerTaskTwo_process ACTION_4 /\
  (ACTION_5 = ACTION_4 \/ (ACTION_5 = ACTION_4 /\ ACTION_4 = ACTION_5) \/
   (ACTION_5 = ACTION_5 /\ ACTION_4 = ACTION_4)) /\
  ACTION_2 = ACTION_2.
Proof.
  assert (H1 : ListenerOne_consumed ACTION_2 = true) by reflexivity.
  assert (H2 : ListenerTwo_consumed ACTION_5 = true) by reflexivity.
  assert (H3 : ListenerTaskTwo_process ACTION_5 = ListenerTaskTwo_process ACTION_4)
    by reflexivity.
  split; [exact H1|]. split; [exact H2|]. split; [exact H3|]. split.
  - exact (proj2 (proj2 (proj2 (process_agrees_with_consumed ACTION_5 ACTION_4)))
             H2 H3).
  - exact (proj1 (proj2 (proj2 (process_agrees_with_consumed ACTION_2 ACTION_2)))
             H1 eq_refl).
Defined.

Lemma Action_print_is_a_digit_witness :
  Action_print ACTION_3 = Action_print ACTION_3 /\ ACTION_3 = ACTION_3.
Proof.
  assert (H : Action_print ACTION_3 = Action_print ACTION_3) by reflexivity.
  split; [exact H|].
  exact (proj2 (Action_print_is_a_digit ACTION_3 ACTION_3) H).
Defined.

End listeners.
